(** * neogma: QueryRunner and NeogmaNotFoundError

    A shallow embedding of [src/QueryRunner/QueryRunner.ts] and
    [src/Errors/NeogmaNotFoundError.ts].

    - JavaScript values are a small inductive type; plain objects are the
      sequence of their own enumerable properties, in [for ... in] order.
    - A [BindParam] is a mutable object: instances live in a heap and are
      named by their location, so that aliasing between the caller's
      registry and the one an operation extends is visible.
    - The operations of [QueryRunner] run in a state-and-exception monad
      over that heap; what they hand to [session.run] is their result. *)

From Stdlib Require Import ZArith String Ascii List.
From stdpp Require Import base gmap strings list fin_maps pretty.

Local Open Scope string_scope.
Set Warnings "-register-all".

(** ** JavaScript values *)

Inductive value : Type :=
  | VUndefined
  | VNull
  | VBool (b : bool)
  | VNum (z : Z)
  | VStr (s : string)
  | VArr (items : list value)
  | VObj (props : list (string * value)).

(** A plain object, as [for (const key in o)] with the [hasOwnProperty]
    guard walks it: own enumerable properties in enumeration order. *)
Abbreviation obj := (list (string * value)).

(** The parameter mapping handed to the driver: parameter name to value. *)
Abbreviation mapping := (gmap string value).

(** ** The contents of a BindParam registry *)

Module Registry.

(** Modelled from the spec: [./Where] (class [BindParam]) is not among the
    sources. A name is free when the mapping has no entry under it. *)
Definition isFree (m : mapping) (name : string) : bool :=
  bool_decide (m !! name = None).

(** Modelled from the spec: the [i]-th variant of a preferred name appends
    the integer suffix [i] in decimal. *)
Definition variant (preferredName : string) (i : nat) : string :=
  preferredName +:+ pretty i.

(** Modelled from the spec: the search behind "append the smallest unused
    integer suffix". A mapping with [n] entries cannot use up the [n + 1]
    suffixes [0 .. n], so the search is bounded by the size of the mapping
    (see [firstFreeSuffix_is_Some]). *)
Definition firstFreeSuffix (m : mapping) (preferredName : string) : option nat :=
  find (fun i => isFree m (variant preferredName i)) (seq 0 (S (size m))).

(** Modelled from the spec: the name [getUniqueNameAndAdd] stores under; if
    the preferred name is free, that exact name, otherwise the variant with
    the smallest unused integer suffix. The last branch is never taken. *)
Definition uniqueName (m : mapping) (preferredName : string) : string :=
  if isFree m preferredName then preferredName
  else match firstFreeSuffix m preferredName with
       | Some i => variant preferredName i
       | None => preferredName
       end.

(** Modelled from the spec: what [getUniqueNameAndAdd] does to the mapping;
    it stores under the unique name and returns the name actually used. *)
Definition insertUnique (m : mapping) (preferredName : string) (v : value)
  : string * mapping :=
  let name := uniqueName m preferredName in
  (name, <[name := v]> m).

(** Modelled from the spec: what [add(values)] does to the mapping; it
    merges a plain mapping of field to value into the registry, generating
    fresh unique keys for colliding field names. *)
Definition merge (m : mapping) (values : obj) : mapping :=
  foldl (fun acc kv => (insertUnique acc kv.1 kv.2).2) m values.

End Registry.

(** ** The heap of registries and the monad of the operations *)

(** A [BindParam] instance is named by its location in the heap. *)
Definition loc := nat.

(** What an operation hands to [session.run(statement, parameters)]. The
    session is an external collaborator: the operation's own result is the
    promise that [run] returns, which this layer never inspects. *)
Record Submission := {
  run_statement : string;
  run_parameters : mapping
}.

Record world := {
  heap : list mapping;        (* the contents of every BindParam instance *)
  logged : list Submission    (* what the injected logger has received *)
}.

(** A [TypeError] is what JavaScript raises on a property access on
    [undefined]; inside an [async] arrow it rejects the returned promise. *)
Inductive error : Type :=
  | TypeError (msg : string).

Inductive outcome (A : Type) : Type :=
  | Returns (x : A)
  | Throws (e : error).
Arguments Returns {A} x.
Arguments Throws {A} e.

Definition M (A : Type) : Type := world → outcome A * world.

Definition ret {A} (x : A) : M A := λ w, (Returns x, w).
Definition throw {A} (e : error) : M A := λ w, (Throws e, w).
Definition andThen {A B} (c : M A) (k : A → M B) : M B := λ w,
  match c w with
  | (Returns x, w') => k x w'
  | (Throws e, w') => (Throws e, w')
  end.

Declare Scope js_scope.
Delimit Scope js_scope with js.
Notation "x <- c ;; k" := (andThen c (λ x, k))
  (at level 100, c at next level, right associativity) : js_scope.
Notation "c ;; k" := (andThen c (λ _, k))
  (at level 100, right associativity) : js_scope.
Local Open Scope js_scope.

Definition alloc (m : mapping) : M loc := λ w,
  (Returns (length (heap w)),
   {| heap := heap w ++ [m]; logged := logged w |}).

Definition contents (w : world) (l : loc) : mapping :=
  match heap w !! l with
  | Some m => m
  | None => ∅
  end.

Definition read (l : loc) : M mapping := λ w, (Returns (contents w l), w).

Definition write (l : loc) (m : mapping) : M unit := λ w,
  (Returns tt, {| heap := <[l := m]> (heap w); logged := logged w |}).

(** ** The BindParam class *)

Module BindParam.

(** The argument of [acquire]: a registry instance, a plain mapping, or
    nothing at all ([undefined]). *)
Inductive acquireArg : Type :=
  | Instance_ (l : loc)
  | Plain (m : mapping)
  | Missing.

(** Modelled from the spec: the constructor of [BindParam] ([./Where] is not
    among the sources); a registry is created empty or seeded from an
    existing mapping. *)
Definition new (seed : mapping) : M loc := alloc seed.

(** Modelled from the spec: [acquire] returns the given registry unchanged
    if it is already a registry instance; otherwise it wraps a plain mapping
    into a new registry. It never fails; a missing argument yields a fresh
    empty registry. *)
Definition acquire (x : acquireArg) : M loc :=
  match x with
  | Instance_ l => ret l
  | Plain m => new m
  | Missing => new ∅
  end.

(** Modelled from the spec: [clone] returns a new registry with an
    independent copy of all current entries. *)
Definition clone (l : loc) : M loc :=
  m <- read l ;; new m.

(** Modelled from the spec: [getUniqueNameAndAdd(preferredName, value)]
    stores the value under the first free name and returns the name actually
    used. It updates the registry in place. *)
Definition getUniqueNameAndAdd (l : loc) (preferredName : string) (v : value)
  : M string :=
  m <- read l ;;
  let r := Registry.insertUnique m preferredName v in
  write l r.2 ;;
  ret r.1.

(** Modelled from the spec: [add(values)] merges a plain mapping of field to
    value into the registry, generating fresh unique keys for colliding
    field names; it returns the registry (chainable). *)
Fixpoint add (l : loc) (values : obj) : M loc :=
  match values with
  | [] => ret l
  | (key, v) :: rest => getUniqueNameAndAdd l key v ;; add l rest
  end.

(** Modelled from the spec: [get] returns the current mapping, suitable for
    direct submission as query parameters. *)
Definition get (l : loc) : M mapping := read l.

End BindParam.

(** ** QueryRunner *)

(** [WhereStatementI] of [./Where]: the expression text and the registry that
    holds its bound values. Only the two fields the runner reads. *)
Record WhereStatementI := {
  statement : string;
  bindParam : loc
}.

Inductive direction : Type := out | in_ | none.

Record NodeI := { label : string }.

Record RelationshipI := {
  rel_label : string;
  rel_direction : direction;
  rel_values : option obj    (* [values?: object] *)
}.

(** [CreateRelationshipParamsI]. The TypeScript type makes [where] required;
    at run time a caller can still leave it out, which is [None] here. *)
Record CreateRelationshipParamsI := {
  cr_a : NodeI;
  cr_b : NodeI;
  cr_relationship : RelationshipI;
  cr_where : option WhereStatementI
}.

(** The runner's only field: whether a logger function was injected
    ([params?.logger || null]). *)
Record QueryRunner := { logger : bool }.

Definition QueryRunner_new (params : option (option unit)) : QueryRunner :=
  {| logger := match params with Some (Some _) => true | _ => false end |}.

(** The line feed and the indentation inside the template literals. *)
Definition nl : string := String "010"%char EmptyString.
Definition indent12 : string := "            ".
Definition indent8 : string := "        ".

Section runner.
Variable this : QueryRunner.

(** [public static getLabel = (label: string) => '`' + label + '`'] *)
Definition getLabel (label : string) : string := "`" +:+ label +:+ "`".

(** [this.logger?.(...val)] *)
Definition log (stmt : string) (parameters : mapping) : M unit := λ w,
  if logger this
  then (Returns tt,
        {| heap := heap w;
           logged := logged w ++
             [{| run_statement := stmt; run_parameters := parameters |}] |})
  else (Returns tt, w).

(** [session.run(statement, parameters)] *)
Definition session_run (stmt : string) (parameters : mapping) : M Submission :=
  ret {| run_statement := stmt; run_parameters := parameters |}.

Definition createMany (nodesLabel : string) (options : list value)
  : M Submission :=
  let label := getLabel nodesLabel in
  let stmt :=
    nl +:+ indent12 +:+ "UNWIND {options} as " +:+ label +:+
    nl +:+ indent12 +:+ "CREATE (node: " +:+ label +:+ ")" +:+
    nl +:+ indent12 +:+ "SET node = " +:+ label +:+
    nl +:+ indent12 +:+ "RETURN " +:+ label +:+ ";" +:+
    nl +:+ indent8 in
  let parameters : mapping := {[ "options" := VArr options ]} in
  log stmt parameters ;;
  session_run stmt parameters.

(** [where?.bindParam] *)
Definition optBindParam (where_ : option WhereStatementI)
  : BindParam.acquireArg :=
  match where_ with
  | Some w => BindParam.Instance_ (bindParam w)
  | None => BindParam.Missing
  end.

Definition editMany_statement (nodesLabel : string)
    (where_ : option WhereStatementI) : string :=
  let label := getLabel nodesLabel in
  let stmt :=
    nl +:+ indent12 +:+ "MATCH (" +:+ label +:+ ": " +:+ label +:+ ")" +:+
    nl +:+ indent8 in
  let stmt :=
    match where_ with
    | Some w => stmt +:+ ("WHERE " +:+ statement w)
    | None => stmt
    end in
  stmt +:+
    (nl +:+ indent12 +:+ "SET " +:+ label +:+ " += { options }" +:+
     nl +:+ indent12 +:+ "return " +:+ label +:+
     nl +:+ indent8).

Definition editMany (nodesLabel : string) (options : obj)
    (where_ : option WhereStatementI) : M Submission :=
  let stmt := editMany_statement nodesLabel where_ in
  acquired <- BindParam.acquire (optBindParam where_) ;;
  cloned <- BindParam.clone acquired ;;
  extended <- BindParam.add cloned options ;;
  parameters <- BindParam.get extended ;;
  log stmt parameters ;;
  session_run stmt parameters.

Definition deleteMany_statement (nodesLabel : string)
    (where_ : option WhereStatementI) : string :=
  let label := getLabel nodesLabel in
  let stmt :=
    nl +:+ indent12 +:+ "MATCH (" +:+ label +:+ ": " +:+ label +:+ ")" +:+
    nl +:+ indent8 in
  let stmt :=
    match where_ with
    | Some w => stmt +:+ ("WHERE " +:+ statement w)
    | None => stmt
    end in
  stmt +:+
    (nl +:+ indent12 +:+ "OPTIONAL MATCH (" +:+ label +:+ ")-[r]-()" +:+
     nl +:+ indent12 +:+ "DELETE " +:+ label +:+ ",r" +:+
     nl +:+ indent8).

Definition deleteMany (nodesLabel : string)
    (where_ : option WhereStatementI) : M Submission :=
  let stmt := deleteMany_statement nodesLabel where_ in
  parameters <- match where_ with
                | Some w => BindParam.get (bindParam w)
                | None => ret ∅
                end ;;
  log stmt parameters ;;
  session_run stmt parameters.

(** String in the format [-[Label]->]; the relationship has the alias [r]. *)
Definition directionString (relationship : RelationshipI) : string :=
  (match rel_direction relationship with in_ => "<-" | _ => "-" end) +:+
  "[r:" +:+ getLabel (rel_label relationship) +:+ "]" +:+
  (match rel_direction relationship with out => "->" | _ => "-" end).

(** Whether the plain object [o] has an own property [key]. *)
Definition hasOwn (o : obj) (key : string) : bool :=
  bool_decide (key ∈ o.*1).

(** [o.hasOwnProperty(key)]. The method is the one of [Object.prototype]
    unless [o] has an own property of that name; such a property shadows
    it, and as no value here is a function, calling it raises a TypeError. *)
Definition callHasOwnProperty (o : obj) (key : string) : M bool :=
  if hasOwn o "hasOwnProperty"
  then throw (TypeError "relationship.values.hasOwnProperty is not a function")
  else ret (hasOwn o key).

(** The [for (const key in relationship.values)] loop over the keys still
    to visit: a key that is not an own property is skipped; each other
    value is registered under a unique name and its assignment pushed. *)
Fixpoint pushRelationshipValues (relationshipAttributesParams : loc)
    (values remaining : obj) (relationshipValues : list string)
  : M (list string) :=
  match remaining with
  | [] => ret relationshipValues
  | (key, v) :: rest =>
      own <- callHasOwnProperty values key ;;
      if own then
        paramName <-
          BindParam.getUniqueNameAndAdd relationshipAttributesParams key v ;;
        pushRelationshipValues relationshipAttributesParams values rest
          (relationshipValues ++ ["r." +:+ key +:+ " = {" +:+ paramName +:+ "}"])
      else
        pushRelationshipValues relationshipAttributesParams values rest
          relationshipValues
  end.

Definition relationshipValuesStatement (relationshipValues : list string)
  : string :=
  match relationshipValues with
  | [] => ""
  | _ => "SET " +:+ String.concat ", " relationshipValues
  end.

Definition createRelationship_statement (a b : NodeI)
    (directionStr whereText valuesStatement : string) : string :=
  nl +:+ indent12 +:+ "MATCH (a:" +:+ getLabel (label a) +:+ "), (b:" +:+
    getLabel (label b) +:+ ")" +:+
  nl +:+ indent12 +:+ "WHERE " +:+ whereText +:+
  nl +:+ indent12 +:+ "CREATE (a)" +:+ directionStr +:+ "(b)" +:+
  nl +:+ indent12 +:+ valuesStatement +:+
  nl +:+ indent8.

Definition createRelationship (params : CreateRelationshipParamsI)
  : M Submission :=
  let a := cr_a params in
  let b := cr_b params in
  let relationship := cr_relationship params in
  let directionStr := directionString relationship in
  match cr_where params with
  | None =>
      (* [where.bindParam] with [where] undefined *)
      throw (TypeError "Cannot read properties of undefined (reading 'bindParam')")
  | Some w =>
      acquired <- BindParam.acquire (BindParam.Instance_ (bindParam w)) ;;
      cloned <- BindParam.clone acquired ;;
      seed <- BindParam.get cloned ;;
      relationshipAttributesParams <- BindParam.new seed ;;
      relationshipValues <-
        match rel_values relationship with
        | Some values =>
            pushRelationshipValues relationshipAttributesParams values values []
        | None => ret []
        end ;;
      let stmt :=
        createRelationship_statement a b directionStr (statement w)
          (relationshipValuesStatement relationshipValues) in
      parameters <- BindParam.get relationshipAttributesParams ;;
      log stmt parameters ;;
      session_run stmt parameters
  end.

End runner.

(** ** NeogmaNotFoundError *)

Section not_found_error.
(** The object as the parent constructor [NeogmaError] leaves it.
    [./NeogmaError] is not among the sources, so its constructor is a
    parameter; the subclass assigns both fields after [super] returns. *)
Record NeogmaError := {
  message : string;
  data : option value      (* [data?: object]; [None] is [undefined] *)
}.

Variable super : option string → option value → NeogmaError.

(** [message || 'neogma not found error']: [undefined] and the empty
    string are the falsy messages. *)
Definition orDefault (msg : option string) (dflt : string) : string :=
  match msg with
  | None => dflt
  | Some "" => dflt
  | Some s => s
  end.

Definition NeogmaNotFoundError (msg : option string) (dat : option value)
  : NeogmaError :=
  let this := super msg dat in
  let this := {| message := orDefault msg "neogma not found error";
                 data := data this |} in
  {| message := message this; data := dat |}.

End not_found_error.

(** ** What an operation handed to [run] *)

Definition submitted (r : outcome Submission * world) : option Submission :=
  match r.1 with
  | Returns s => Some s
  | Throws _ => None
  end.

(** ** Derived descriptions of what the operations compute *)

(** The assignments the [for ... in] loop of [createRelationship] pushes,
    read off the registry contents it starts from. *)
Fixpoint assignments (m : mapping) (values : obj) : list string :=
  match values with
  | [] => []
  | (key, v) :: rest =>
      let r := Registry.insertUnique m key v in
      ("r." +:+ key +:+ " = {" +:+ r.1 +:+ "}") :: assignments r.2 rest
  end.



(** The parameters of bulk-edit as the specification words them: the
    Where's entries extended with the edit payload under the key [options]. *)
Definition spec_editMany_parameters (m : mapping) (options : obj) : mapping :=
  (Registry.insertUnique m "options" (VObj options)).2.

(** [text] occurs in [s]. *)
Definition occursIn (text s : string) : Prop :=
  ∃ pre post, s = pre +:+ text +:+ post.

(** Whether [s] starts with [text]. *)
Fixpoint startsWith (text s : string) : bool :=
  match text, s with
  | EmptyString, _ => true
  | String a text', String b s' => bool_decide (a = b) && startsWith text' s'
  | String _ _, EmptyString => false
  end.

(** Whether [text] occurs in [s], as a test. *)
Fixpoint includes (text s : string) : bool :=
  startsWith text s ||
  match s with
  | EmptyString => false
  | String _ rest => includes text rest
  end.

(** The statement of bulk-create as the specification words it, one that
    "returns the created nodes": the CREATE clause gives the created node
    the alias [node], so the RETURN clause names [node]. *)
Definition returns_created_node (stmt : string) : Prop :=
  occursIn "RETURN node" stmt.

(** Whether the character [c] occurs in [s]. *)
Fixpoint hasChar (c : ascii) (s : string) : bool :=
  match s with
  | EmptyString => false
  | String c' rest => bool_decide (c = c') || hasChar c rest
  end.

(** A Where clause over one bound value, and a heap holding its registry. *)
Definition example_where : WhereStatementI :=
  {| statement := "a.id = {id}"; bindParam := 0 |}.

Definition example_world : world :=
  {| heap := [ {[ "id" := VNum 1 ]} ]; logged := [] |}.

Definition example_relationship : RelationshipI :=
  {| rel_label := "KNOWS"; rel_direction := out;
     rel_values := Some [("since", VNum 2020); ("id", VNum 7)] |}.

(** The attribute values the loop walks: none when [values] is left out. *)
Definition attributeValues (relationship : RelationshipI) : obj :=
  match rel_values relationship with
  | Some values => values
  | None => []
  end.

(** The log after one more call of the operation. *)
Definition logged_after (this : QueryRunner) (w : world) (s : Submission)
  : list Submission :=
  if logger this then (logged w ++ [s])%list else logged w.

(** Two optional Where clauses, each read in its own heap, that carry the
    same expression text and the same bound values. *)
Definition same_where (w1 : world) (where1 : option WhereStatementI)
    (w2 : world) (where2 : option WhereStatementI) : Prop :=
  match where1, where2 with
  | None, None => True
  | Some x1, Some x2 =>
      statement x1 = statement x2 ∧
      ∃ m, heap w1 !! bindParam x1 = Some m ∧ heap w2 !! bindParam x2 = Some m
  | _, _ => False
  end.

(** What the logger has received after a call with result [r] that started
    in [w]: the submission itself, once, when a logger is injected and the
    call returned; nothing new otherwise. *)
Definition logs_its_submission (this : QueryRunner) (w : world)
    (r : outcome Submission * world) : Prop :=
  match r.1 with
  | Returns s => logged r.2 = if logger this then (logged w ++ [s])%list
                              else logged w
  | Throws _ => logged r.2 = logged w
  end.

(** * Proofs *)

(** ** Facts about registry contents *)

Section registry_facts.
Implicit Types (m : mapping) (p name : string) (v : value) (o : obj).

Lemma isFree_true m name : Registry.isFree m name = true ↔ m !! name = None.
Proof. unfold Registry.isFree. by rewrite bool_decide_eq_true. Qed.

Lemma isFree_false m name :
  Registry.isFree m name = false ↔ is_Some (m !! name).
Proof.
  unfold Registry.isFree. rewrite bool_decide_eq_false.
  by rewrite <- not_eq_None_Some.
Qed.

Lemma variant_inj p : Inj (=) (=) (Registry.variant p).
Proof.
  intros i j Hij. unfold Registry.variant in Hij.
  by apply (inj pretty), (inj (String.append p)).
Qed.

(** Pigeonhole: the bounded search for a free suffix always succeeds. *)
Lemma firstFreeSuffix_is_Some m p : is_Some (Registry.firstFreeSuffix m p).
Proof.
  unfold Registry.firstFreeSuffix.
  destruct (find _ _) as [i|] eqn:Hfind; [by eexists|]. exfalso.
  set (names := Registry.variant p <$> seq 0 (S (size m))).
  assert (Hsub : (list_to_set names : gset string) ⊆ dom m).
  { intros x Hx. apply elem_of_list_to_set in Hx.
    apply list_elem_of_fmap in Hx as (i & -> & Hi).
    apply elem_of_dom, isFree_false.
    apply (find_none _ _ Hfind i). by apply list_elem_of_In. }
  apply subseteq_size in Hsub.
  rewrite size_dom, size_list_to_set in Hsub.
  - unfold names in Hsub. rewrite length_fmap, length_seq in Hsub. lia.
  - apply NoDup_fmap_2; [apply variant_inj | apply NoDup_seq].
Qed.

Lemma firstFreeSuffix_free m p i :
  Registry.firstFreeSuffix m p = Some i → m !! Registry.variant p i = None.
Proof. intros H. apply find_some in H as [_ H]. by apply isFree_true. Qed.

(** The suffix found is the smallest unused one. *)
Lemma find_seq_least (P : nat → bool) n s i j :
  find P (seq s n) = Some i → s ≤ j < i → P j = false.
Proof.
  revert s. induction n as [|n IH]; intros s; simpl; [done|].
  destruct (P s) eqn:Hs.
  - intros [= <-] Hj. lia.
  - intros Hfind Hj. destruct (decide (j = s)) as [->|Hne]; [done|].
    apply (IH (S s)); [done|lia].
Qed.

Lemma firstFreeSuffix_least m p i j :
  Registry.firstFreeSuffix m p = Some i → j < i →
  is_Some (m !! Registry.variant p j).
Proof.
  intros Hfind Hj. apply isFree_false.
  apply (find_seq_least _ _ _ _ _ Hfind). lia.
Qed.

(** The name chosen by [uniqueName] is never in use. *)
Lemma uniqueName_free m p : m !! Registry.uniqueName m p = None.
Proof.
  unfold Registry.uniqueName.
  destruct (Registry.isFree m p) eqn:Hp; [by apply isFree_true|].
  destruct (firstFreeSuffix_is_Some m p) as [i Hi]. rewrite Hi.
  by apply firstFreeSuffix_free.
Qed.

Lemma uniqueName_preferred m p :
  m !! p = None → Registry.uniqueName m p = p.
Proof.
  intros H. unfold Registry.uniqueName.
  by rewrite (proj2 (isFree_true m p) H).
Qed.




End registry_facts.

(** ** Running the registry methods *)

Section run_lemmas.
Implicit Types (w : world) (l : loc) (m : mapping) (o : obj).

Lemma snoc_lookup_last {A} (h : list A) (x : A) :
  (h ++ [x])%list !! length h = Some x.
Proof. by apply list_lookup_middle. Qed.

Lemma snoc_insert_last {A} (h : list A) (x y : A) :
  <[length h := y]> (h ++ [x])%list = (h ++ [y])%list.
Proof. by rewrite insert_app_r_alt, Nat.sub_diag. Qed.

Lemma contents_valid w l m : heap w !! l = Some m → contents w l = m.
Proof. unfold contents. by intros ->. Qed.

Lemma clone_run l w :
  BindParam.clone l w =
  (Returns (length (heap w)),
   {| heap := heap w ++ [contents w l]; logged := logged w |}).
Proof. reflexivity. Qed.

Lemma getUniqueNameAndAdd_run l p v w :
  BindParam.getUniqueNameAndAdd l p v w =
  (Returns (Registry.uniqueName (contents w l) p),
   {| heap := <[l := <[Registry.uniqueName (contents w l) p := v]> (contents w l)]>
                (heap w);
      logged := logged w |}).
Proof. reflexivity. Qed.

(** [add] on a live registry is [Registry.merge] on its contents. *)
Lemma add_run l o w m :
  heap w !! l = Some m →
  BindParam.add l o w =
  (Returns l,
   {| heap := <[l := Registry.merge m o]> (heap w); logged := logged w |}).
Proof.
  revert w m. induction o as [|[k v] o IH]; intros w m Hl.
  - simpl. unfold ret. rewrite list_insert_id by done. by destruct w.
  - cbn [BindParam.add]. unfold andThen.
    rewrite getUniqueNameAndAdd_run, (contents_valid _ _ _ Hl).
    erewrite IH; cbn [heap logged].
    + by rewrite list_insert_insert_eq.
    + apply list_lookup_insert_eq. by eapply lookup_lt_Some.
Qed.

(** [add] returns the registry it was called on, whatever the heap. *)
Lemma add_returns l o w : (BindParam.add l o w).1 = Returns l.
Proof.
  revert w. induction o as [|[k v] o IH]; intros w; [done|].
  cbn [BindParam.add]. unfold andThen.
  rewrite getUniqueNameAndAdd_run. apply IH.
Qed.

End run_lemmas.

(** ** Running the operations *)

Section operation_lemmas.
Variable this : QueryRunner.
Implicit Types (w : world) (l : loc) (m : mapping) (o : obj).

Lemma log_run stmt ps w :
  log this stmt ps w =
  (Returns tt,
   {| heap := heap w;
      logged := logged_after this w
                  {| run_statement := stmt; run_parameters := ps |} |}).
Proof. unfold log, logged_after. destruct (logger this), w; done. Qed.

Lemma hasOwn_elem (values : obj) key v :
  (key, v) ∈ values → hasOwn values key = true.
Proof.
  intros Hin. unfold hasOwn. apply bool_decide_eq_true.
  apply list_elem_of_fmap. by exists (key, v).
Qed.

Lemma hasOwn_nonempty (values : obj) key :
  hasOwn values key = true → values ≠ [].
Proof. by intros H ->. Qed.

(** The loop when nothing shadows [hasOwnProperty]. *)
Lemma pushRelationshipValues_run l (values remaining : obj) acc w m :
  heap w !! l = Some m →
  hasOwn values "hasOwnProperty" = false →
  (∀ key v, (key, v) ∈ remaining → hasOwn values key = true) →
  pushRelationshipValues l values remaining acc w =
  (Returns (acc ++ assignments m remaining)%list,
   {| heap := <[l := Registry.merge m remaining]> (heap w);
      logged := logged w |}).
Proof.
  intros Hl Hshadow. revert acc w m Hl.
  induction remaining as [|[k v] remaining IH]; intros acc w m Hl Hown.
  - simpl. unfold ret. rewrite app_nil_r, list_insert_id by done.
    by destruct w.
  - cbn [pushRelationshipValues]. unfold andThen at 1, callHasOwnProperty.
    rewrite Hshadow. unfold ret at 1.
    rewrite (Hown k v) by left. unfold andThen.
    rewrite getUniqueNameAndAdd_run, (contents_valid _ _ _ Hl).
    erewrite IH; cbn [heap logged].
    + rewrite list_insert_insert_eq, <- app_assoc. done.
    + apply list_lookup_insert_eq. by eapply lookup_lt_Some.
    + intros key v' Hin. apply (Hown key v'). by right.
Qed.

(** The loop when the object has an own property [hasOwnProperty]: the
    first iteration throws, before anything is stored. *)
Lemma pushRelationshipValues_throws l (values remaining : obj) acc w :
  hasOwn values "hasOwnProperty" = true → remaining ≠ [] →
  pushRelationshipValues l values remaining acc w =
  (Throws (TypeError "relationship.values.hasOwnProperty is not a function"),
   w).
Proof.
  intros Hshadow Hne. destruct remaining as [|[k v] remaining]; [done|].
  cbn [pushRelationshipValues]. unfold andThen, callHasOwnProperty.
  by rewrite Hshadow.
Qed.

Lemma andThen_log_run {A} stmt ps (k : M A) w :
  (log this stmt ps ;; k) w =
  k {| heap := heap w;
       logged := logged_after this w
                   {| run_statement := stmt; run_parameters := ps |} |}.
Proof. unfold andThen. by rewrite log_run. Qed.

Lemma createMany_outcome nodesLabel options w :
  ∃ stmt, (createMany this nodesLabel options w).1 =
    Returns {| run_statement := stmt;
               run_parameters := {[ "options" := VArr options ]} |}
    ∧ ∀ w', (createMany this nodesLabel options w').1
            = (createMany this nodesLabel options w).1.
Proof.
  eexists. unfold createMany. rewrite andThen_log_run.
  split; [reflexivity|]. intros w'. by rewrite andThen_log_run.
Qed.

(** bulk-edit with a Where whose registry is live *)
Lemma editMany_run_some nodesLabel options x w m :
  heap w !! bindParam x = Some m →
  let s := {| run_statement := editMany_statement nodesLabel (Some x);
              run_parameters := Registry.merge m options |} in
  editMany this nodesLabel options (Some x) w =
  (Returns s,
   {| heap := (heap w ++ [Registry.merge m options])%list;
      logged := logged_after this w s |}).
Proof.
  intros Hl s. unfold editMany, andThen. cbn [optBindParam BindParam.acquire].
  unfold ret at 1. rewrite clone_run, (contents_valid _ _ _ Hl).
  erewrite add_run by (cbn [heap]; apply snoc_lookup_last).
  cbn [heap logged]. unfold BindParam.get, read, contents. cbn [heap logged].
  rewrite snoc_insert_last, snoc_lookup_last. cbn match.
  rewrite log_run. reflexivity.
Qed.

(** bulk-edit without a Where: [acquire] makes an empty registry *)
Lemma editMany_run_none nodesLabel options w :
  let s := {| run_statement := editMany_statement nodesLabel None;
              run_parameters := Registry.merge ∅ options |} in
  editMany this nodesLabel options None w =
  (Returns s,
   {| heap := (heap w ++ [∅; Registry.merge ∅ options])%list;
      logged := logged_after this w s |}).
Proof.
  intros s. unfold editMany, andThen. cbn [optBindParam BindParam.acquire].
  unfold BindParam.new at 1, alloc at 1. rewrite clone_run. cbn [heap logged].
  unfold contents at 1. cbn [heap]. rewrite snoc_lookup_last. cbn match.
  erewrite add_run by (cbn [heap]; apply snoc_lookup_last).
  cbn [heap logged]. unfold BindParam.get, read, contents. cbn [heap logged].
  rewrite snoc_insert_last, snoc_lookup_last. cbn match.
  rewrite log_run, <- app_assoc. reflexivity.
Qed.

Lemma deleteMany_run nodesLabel where_ w :
  let s := {| run_statement := deleteMany_statement nodesLabel where_;
              run_parameters :=
                match where_ with
                | Some x => contents w (bindParam x)
                | None => ∅
                end |} in
  deleteMany this nodesLabel where_ w =
  (Returns s, {| heap := heap w; logged := logged_after this w s |}).
Proof.
  intros s. unfold deleteMany, andThen.
  destruct where_ as [x|]; cbn; rewrite log_run; reflexivity.
Qed.

(** create-relationship with a Where whose registry is live: it submits,
    unless the attribute object shadows [hasOwnProperty]; then the loop
    throws after the two registries were made and before the logger runs. *)
Lemma createRelationship_run a b relationship x w m :
  heap w !! bindParam x = Some m →
  let values := attributeValues relationship in
  let s := {| run_statement :=
                createRelationship_statement a b (directionString relationship)
                  (statement x)
                  (relationshipValuesStatement (assignments m values));
              run_parameters := Registry.merge m values |} in
  createRelationship this
    {| cr_a := a; cr_b := b; cr_relationship := relationship;
       cr_where := Some x |} w =
  if hasOwn values "hasOwnProperty"
  then (Throws
          (TypeError "relationship.values.hasOwnProperty is not a function"),
        {| heap := (heap w ++ [m; m])%list; logged := logged w |})
  else (Returns s,
        {| heap := (heap w ++ [m; Registry.merge m values])%list;
           logged := logged_after this w s |}).
Proof.
  intros Hl values s. unfold createRelationship, andThen.
  cbn [cr_where cr_a cr_b cr_relationship BindParam.acquire].
  unfold ret at 1. rewrite clone_run, (contents_valid _ _ _ Hl).
  unfold BindParam.get at 1, read at 1, contents at 1. cbn [heap logged].
  rewrite snoc_lookup_last. cbn match.
  unfold BindParam.new, alloc. cbn [heap logged].
  destruct (hasOwn values "hasOwnProperty") eqn:Hshadow.
  - subst values. unfold attributeValues in Hshadow.
    destruct (rel_values relationship) as [vs|]; [|done].
    rewrite (pushRelationshipValues_throws _ vs vs [] _ Hshadow
               (hasOwn_nonempty _ _ Hshadow)).
    by rewrite <- app_assoc.
  - assert (Hpush :
      match rel_values relationship with
      | Some vs => pushRelationshipValues (length (heap w ++ [m])) vs vs []
      | None => ret []
      end {| heap := (heap w ++ [m]) ++ [m]; logged := logged w |} =
      (Returns (assignments m values),
       {| heap := (heap w ++ [m]) ++ [Registry.merge m values];
          logged := logged w |})).
    { subst values. unfold attributeValues in *.
      destruct (rel_values relationship) as [vs|].
      - erewrite pushRelationshipValues_run;
          [|cbn [heap]; apply snoc_lookup_last|done|apply hasOwn_elem].
        cbn [heap logged]. by rewrite snoc_insert_last.
      - reflexivity. }
    rewrite Hpush. unfold BindParam.get, read, contents. cbn [heap logged].
    rewrite snoc_lookup_last. cbn match.
    rewrite log_run, <- app_assoc. reflexivity.
Qed.



Lemma editMany_returns nodesLabel options where_ w :
  ∃ s w', editMany this nodesLabel options where_ w = (Returns s, w')
        ∧ run_statement s = editMany_statement nodesLabel where_.
Proof.
  unfold editMany, andThen.
  destruct (BindParam.acquire (optBindParam where_) w) as [[l0|e] w0] eqn:H0;
    [|by destruct where_].
  rewrite clone_run.
  set (w1 := {| heap := _; logged := _ |}). set (l1 := length _).
  pose proof (add_returns l1 options w1) as Hadd.
  destruct (BindParam.add l1 options w1) as [o w2]. cbn in Hadd. subst o.
  unfold BindParam.get, read. rewrite log_run. unfold session_run, ret.
  eexists _, _. split; reflexivity.
Qed.

End operation_lemmas.

(** ** Strings and the pushed assignments *)

Section string_facts.
Implicit Types (s t u : string).

Lemma string_app_assoc s t u : (s +:+ t) +:+ u = s +:+ t +:+ u.
Proof.
  induction s as [|c s IH]; [done|].
  change (String c ((s +:+ t) +:+ u) = String c (s +:+ t +:+ u)).
  by rewrite IH.
Qed.


End string_facts.

Section assignment_facts.
Implicit Types (m : mapping) (values : obj).







Lemma startsWith_app (text post : string) :
  startsWith text (text +:+ post) = true.
Proof.
  induction text as [|c text IH]; [done|].
  change (startsWith (String c text) (String c (text +:+ post)) = true).
  cbn [startsWith]. by rewrite bool_decide_eq_true_2, IH.
Qed.

Lemma occursIn_includes (text s : string) :
  occursIn text s → includes text s = true.
Proof.
  intros (pre & post & ->). induction pre as [|c pre IH].
  - change (includes text (text +:+ post) = true).
    destruct (text +:+ post) eqn:E; cbn [includes];
      rewrite <- E, startsWith_app; done.
  - change (includes text (String c (pre +:+ text +:+ post)) = true).
    cbn [includes]. rewrite IH. apply orb_true_r.
Qed.

Lemma hasChar_app c (s t : string) :
  hasChar c (s +:+ t) = hasChar c s || hasChar c t.
Proof.
  induction s as [|c' s IH]; [done|].
  change (bool_decide (c = c') || hasChar c (s +:+ t)
          = bool_decide (c = c') || hasChar c s || hasChar c t).
  by rewrite IH, orb_assoc.
Qed.

Lemma occursIn_hasChar c (text s : string) :
  hasChar c text = true → occursIn text s → hasChar c s = true.
Proof.
  intros Hc (pre & post & ->). rewrite !hasChar_app, Hc.
  by rewrite orb_true_r.
Qed.

End assignment_facts.

(** ** Properties of the operations *)

Section claims.
Implicit Types (this : QueryRunner) (w : world) (m : mapping).

(** C5, as stated, fails: the statement creates each node under the alias
    [node], but its RETURN clause does not name [node]. *)
Lemma createMany_does_not_return_node :
  ∃ s,
    submitted (createMany {| logger := false |} "Person"
                 [VObj [("name", VStr "a")]; VObj [("name", VStr "b")]]
                 {| heap := []; logged := [] |}) = Some s
    ∧ occursIn "CREATE (node: `Person`)" (run_statement s)
    ∧ ¬ returns_created_node (run_statement s).
Proof.
  eexists. split; [reflexivity|]. cbn [run_statement]. split.
  - exists (nl +:+ indent12 +:+ "UNWIND {options} as `Person`" +:+ nl +:+
            indent12),
           (nl +:+ indent12 +:+ "SET node = `Person`" +:+ nl +:+ indent12 +:+
            "RETURN `Person`;" +:+ nl +:+ indent8).
    by vm_compute.
  - intros Hocc%occursIn_includes. vm_compute in Hocc. discriminate Hocc.
Qed.

(** C5, amended. bulk-create submits exactly [{ options: <the list> }] as
    parameters, and its statement is the template that unwinds [{options}]
    under the backtick-escaped label, creates a node of that label per item
    under the alias [node], sets the node from the item, and returns the
    unwound item, that is the alias of the escaped label, not [node];
    nothing in the heap changes. *)
Theorem createMany_submission this nodesLabel (options : list value) w :
  let s :=
    {| run_statement := "
            UNWIND {options} as `" +:+ nodesLabel +:+ "`
            CREATE (node: `" +:+ nodesLabel +:+ "`)
            SET node = `" +:+ nodesLabel +:+ "`
            RETURN `" +:+ nodesLabel +:+ "`;
        ";
       run_parameters := {[ "options" := VArr options ]} |} in
  createMany this nodesLabel options w =
    (Returns s, {| heap := heap w; logged := logged_after this w s |})
  ∧ run_parameters s !! "options" = Some (VArr options)
  ∧ dom (run_parameters s) = {[ "options" ]}.
Proof.
  intros s. split; [|split].
  - unfold createMany, andThen. rewrite log_run.
    unfold session_run, ret, getLabel, nl, indent12, indent8. cbn [heap logged].
    subst s. rewrite !string_app_assoc. reflexivity.
  - apply lookup_singleton_eq.
  - apply dom_singleton_L.
Qed.

(** C10. A [NeogmaNotFoundError] built with an absent or empty message
    carries the default message 'neogma not found error'; a non-empty
    message is kept as given; the data payload is stored as passed,
    [undefined] included. Whatever the parent constructor did is
    overwritten. *)
Theorem NeogmaNotFoundError_fields
    (super : option string → option value → NeogmaError) (dat : option value) :
  message (NeogmaNotFoundError super None dat) = "neogma not found error"
  ∧ message (NeogmaNotFoundError super (Some "") dat) = "neogma not found error"
  ∧ (∀ c rest, message (NeogmaNotFoundError super (Some (String c rest)) dat)
               = String c rest)
  ∧ (∀ msg, data (NeogmaNotFoundError super msg dat) = dat).
Proof. repeat split. Qed.


(** C4, as stated, fails: with the [where] argument left out,
    create-relationship submits nothing at all. *)
Lemma createRelationship_absent_where_submits_nothing :
  ¬ ∃ s, submitted
      (createRelationship {| logger := false |}
         {| cr_a := {| label := "Person" |};
            cr_b := {| label := "City" |};
            cr_relationship :=
              {| rel_label := "LIVES_IN"; rel_direction := out;
                 rel_values := None |};
            cr_where := None |}
         {| heap := []; logged := [] |}) = Some s.
Proof. intros [s Hs]. discriminate Hs. Qed.

(** C4, amended. With the [where] argument left out, create-relationship
    throws a TypeError when it reads [where.bindParam]: no registry is
    created, nothing is logged and nothing is handed to [run]. *)
Theorem createRelationship_absent_where_throws this a b relationship w :
  let params := {| cr_a := a; cr_b := b; cr_relationship := relationship;
                   cr_where := None |} in
  (∃ msg, createRelationship this params w = (Throws (TypeError msg), w))
  ∧ submitted (createRelationship this params w) = None.
Proof. intros params. split; [by eexists|reflexivity]. Qed.

(** C7. In bulk-edit and bulk-delete the text between the MATCH line and
    the rest of the statement is empty when no Where is supplied, and is
    [WHERE] followed by the Where's expression when one is: the statement
    has a filter clause exactly when a Where argument is given. *)
Theorem where_clause_iff_supplied this nodesLabel options
    (where_ : option WhereStatementI) w :
  let clause := match where_ with
                | Some x => "WHERE " +:+ statement x
                | None => ""
                end in
  let matchLine := "
            MATCH (`" +:+ nodesLabel +:+ "`: `" +:+ nodesLabel +:+ "`)
        " in
  (∃ s w', editMany this nodesLabel options where_ w = (Returns s, w')
         ∧ run_statement s = matchLine +:+ clause +:+ "
            SET `" +:+ nodesLabel +:+ "` += { options }
            return `" +:+ nodesLabel +:+ "`
        ")
  ∧ (∃ s w', deleteMany this nodesLabel where_ w = (Returns s, w')
         ∧ run_statement s = matchLine +:+ clause +:+ "
            OPTIONAL MATCH (`" +:+ nodesLabel +:+ "`)-[r]-()
            DELETE `" +:+ nodesLabel +:+ "`,r
        ")
  ∧ (clause ≠ "" ↔ is_Some where_).
Proof.
  intros clause matchLine. split; [|split].
  - destruct (editMany_returns this nodesLabel options where_ w)
      as (s & w' & Hrun & Hstmt).
    exists s, w'. split; [done|]. rewrite Hstmt.
    unfold editMany_statement, getLabel, nl, indent12, indent8.
    subst clause matchLine. destruct where_ as [x|];
      rewrite !string_app_assoc; reflexivity.
  - rewrite deleteMany_run. eexists _, _. split; [reflexivity|].
    cbn [run_statement].
    unfold deleteMany_statement, getLabel, nl, indent12, indent8.
    subst clause matchLine. destruct where_ as [x|];
      rewrite !string_app_assoc; reflexivity.
  - subst clause. destruct where_ as [x|]; split; try done.
Qed.

(** C6. bulk-edit and create-relationship, seeded from the registry of a
    caller's Where clause, leave that registry as it was: they extend a
    clone. The same holds for every registry that was live before the
    call. *)
Theorem caller_bindParam_unchanged this (x : WhereStatementI) w m :
  heap w !! bindParam x = Some m →
  ∀ nodesLabel options a b relationship,
    let afterEdit := (editMany this nodesLabel options (Some x) w).2 in
    let afterCreate :=
      (createRelationship this
         {| cr_a := a; cr_b := b; cr_relationship := relationship;
            cr_where := Some x |} w).2 in
    contents afterEdit (bindParam x) = contents w (bindParam x)
    ∧ contents afterCreate (bindParam x) = contents w (bindParam x)
    ∧ ∀ l, l < length (heap w) →
        contents afterEdit l = contents w l
        ∧ contents afterCreate l = contents w l.
Proof.
  intros Hl nodesLabel options a b relationship afterEdit afterCreate.
  assert (Hframe : ∀ l, l < length (heap w) →
    contents afterEdit l = contents w l
    ∧ contents afterCreate l = contents w l).
  { intros l Hlt. subst afterEdit afterCreate.
    rewrite (editMany_run_some this nodesLabel options x w m Hl).
    rewrite (createRelationship_run this a b relationship x w m Hl).
    unfold contents.
    destruct (hasOwn _ _); cbn [snd heap]; by rewrite !lookup_app_l. }
  pose proof (lookup_lt_Some _ _ _ Hl) as Hlt.
  destruct (Hframe _ Hlt) as [??]. done.
Qed.

(** C8. Two values added to one registry under the same preferred name get
    distinct stored names: the first one the preferred name itself when it
    is free, otherwise the preferred name with the smallest unused integer
    suffix; the second one a suffixed variant. The mapping holds both
    values afterwards, and every entry that was there before. Adding them
    through [add] gives the same mapping. *)
Theorem same_preferred_name_twice (l : loc) w m (p : string) (v1 v2 : value) :
  heap w !! l = Some m →
  let r1 := BindParam.getUniqueNameAndAdd l p v1 w in
  let r2 := BindParam.getUniqueNameAndAdd l p v2 r1.2 in
  let final := contents r2.2 l in
  ∃ n1 n2,
    r1.1 = Returns n1 ∧ r2.1 = Returns n2
    ∧ n1 ≠ n2
    ∧ (m !! p = None ∧ n1 = p
       ∨ is_Some (m !! p) ∧
         ∃ i, n1 = Registry.variant p i ∧ m !! n1 = None ∧
              ∀ j, j < i → is_Some (m !! Registry.variant p j))
    ∧ (∃ i, n2 = Registry.variant p i)
    ∧ final !! n1 = Some v1
    ∧ final !! n2 = Some v2
    ∧ m ⊆ final
    ∧ contents (BindParam.add l [(p, v2)] (BindParam.add l [(p, v1)] w).2).2 l
      = final.
Proof.
  intros Hl r1 r2 final.
  set (n1 := Registry.uniqueName m p).
  set (m1 := <[n1 := v1]> m).
  set (n2 := Registry.uniqueName m1 p).
  assert (Hw1 : heap r1.2 !! l = Some m1).
  { subst r1. rewrite getUniqueNameAndAdd_run, (contents_valid _ _ _ Hl).
    cbn [snd heap]. apply list_lookup_insert_eq. by eapply lookup_lt_Some. }
  assert (Hfinal : final = <[n2 := v2]> m1).
  { subst final r2. rewrite getUniqueNameAndAdd_run, (contents_valid _ _ _ Hw1).
    cbn [snd heap]. apply contents_valid, list_lookup_insert_eq.
    by eapply lookup_lt_Some. }
  assert (Hn1 : m !! n1 = None) by apply uniqueName_free.
  assert (Hn2 : m1 !! n2 = None) by apply uniqueName_free.
  assert (Hne : n1 ≠ n2).
  { intros Heq. rewrite <- Heq in Hn2. subst m1.
    by rewrite lookup_insert_eq in Hn2. }
  assert (Htaken : is_Some (m1 !! p)).
  { subst m1. destruct (m !! p) as [y|] eqn:Hp.
    - destruct (decide (n1 = p)) as [Heq|Hnp].
      + rewrite Heq in Hn1. congruence.
      + rewrite lookup_insert_ne by done. by rewrite Hp.
    - subst n1. rewrite (uniqueName_preferred _ _ Hp), lookup_insert_eq.
      by eexists. }
  exists n1, n2. split_and!.
  - subst r1. by rewrite getUniqueNameAndAdd_run, (contents_valid _ _ _ Hl).
  - subst r2. by rewrite getUniqueNameAndAdd_run, (contents_valid _ _ _ Hw1).
  - done.
  - destruct (m !! p) as [y|] eqn:Hp.
    + right. split; [by eexists|]. subst n1. unfold Registry.uniqueName in *.
      rewrite (proj2 (isFree_false m p)) in * by (rewrite Hp; by eexists).
      destruct (firstFreeSuffix_is_Some m p) as [i Hi]. rewrite Hi in *.
      exists i. split; [done|]. split; [done|].
      intros j Hj. by eapply firstFreeSuffix_least.
    + left. split; [done|]. by apply uniqueName_preferred.
  - subst n2. unfold Registry.uniqueName.
    rewrite (proj2 (isFree_false m1 p) Htaken).
    destruct (firstFreeSuffix_is_Some m1 p) as [i Hi]. rewrite Hi.
    by exists i.
  - rewrite Hfinal, lookup_insert_ne by done. apply lookup_insert_eq.
  - rewrite Hfinal. apply lookup_insert_eq.
  - rewrite Hfinal. etrans; [apply (insert_subseteq m n1 v1 Hn1)|].
    by apply insert_subseteq.
  - rewrite (add_run l [(p, v1)] w m Hl). cbn [snd].
    erewrite add_run; cycle 1.
    { cbn [heap]. apply list_lookup_insert_eq. by eapply lookup_lt_Some. }
    rewrite Hfinal. cbn [snd]. apply contents_valid. cbn [heap].
    rewrite list_insert_insert_eq.
    apply list_lookup_insert_eq. by eapply lookup_lt_Some.
Qed.

(** C9. Each of the four operations gives the same outcome — the same
    statement text and the same parameter mapping — on two calls with the
    same inputs, each call reading its Where's bound values from a
    registry of its own: the outcome depends on what the registry holds,
    not on which instance it is nor on anything else in the heap. *)
Theorem two_run_determinism this w1 w2
    (where1 where2 : option WhereStatementI) :
  same_where w1 where1 w2 where2 →
  ∀ nodesLabel items options a b relationship,
    (createMany this nodesLabel items w1).1
      = (createMany this nodesLabel items w2).1
    ∧ (editMany this nodesLabel options where1 w1).1
      = (editMany this nodesLabel options where2 w2).1
    ∧ (deleteMany this nodesLabel where1 w1).1
      = (deleteMany this nodesLabel where2 w2).1
    ∧ (createRelationship this
         {| cr_a := a; cr_b := b; cr_relationship := relationship;
            cr_where := where1 |} w1).1
      = (createRelationship this
           {| cr_a := a; cr_b := b; cr_relationship := relationship;
              cr_where := where2 |} w2).1.
Proof.
  intros Hsame nodesLabel items options a b relationship.
  split; [by destruct (createMany_outcome this nodesLabel items w2) as (? & _ & ->)|].
  destruct where1 as [x1|], where2 as [x2|]; try done.
  - destruct Hsame as (Hstmt & m & H1 & H2).
    rewrite (editMany_run_some this nodesLabel options x1 w1 m H1).
    rewrite (editMany_run_some this nodesLabel options x2 w2 m H2).
    rewrite !deleteMany_run.
    rewrite (createRelationship_run this a b relationship x1 w1 m H1).
    rewrite (createRelationship_run this a b relationship x2 w2 m H2).
    rewrite (contents_valid _ _ _ H1), (contents_valid _ _ _ H2).
    unfold editMany_statement, deleteMany_statement. cbn [fst].
    rewrite Hstmt. by destruct (hasOwn _ _).
  - rewrite !editMany_run_none, !deleteMany_run. done.
Qed.



(** C1 on the code: bulk-edit of [Person] with payload [{age: 30}] and no
    Where submits [{age: 30}] itself. The payload's fields are merged into
    the parameters one by one; the key [options], which the statement's
    [SET ... += { options }] refers to, is not among them. *)
Lemma editMany_payload_not_under_options :
  ∃ s,
    submitted (editMany {| logger := false |} "Person" [("age", VNum 30)]
                 None {| heap := []; logged := [] |}) = Some s
    ∧ occursIn "+= { options }" (run_statement s)
    ∧ run_parameters s = {[ "age" := VNum 30 ]}
    ∧ run_parameters s !! "options" = None
    ∧ run_parameters s ≠ spec_editMany_parameters ∅ [("age", VNum 30)].
Proof.
  exists {| run_statement := editMany_statement "Person" None;
            run_parameters := {[ "age" := VNum 30 ]} |}.
  split_and!.
  - rewrite editMany_run_none. by vm_compute.
  - exists (nl +:+ indent12 +:+ "MATCH (`Person`: `Person`)" +:+ nl +:+
            indent8 +:+ nl +:+ indent12 +:+ "SET `Person` "),
           (nl +:+ indent12 +:+ "return `Person`" +:+ nl +:+ indent8).
    by vm_compute.
  - done.
  - by vm_compute.
  - intros H. apply (f_equal (.!! "options")) in H. vm_compute in H.
    discriminate H.
Qed.

(** ** Further properties *)

(** X2. create-relationship without attribute values ([values] left out or
    empty) submits the Where's entries unchanged and a statement without a
    SET clause. *)
Theorem createRelationship_without_values this a b L d
    (x : WhereStatementI) w m :
  heap w !! bindParam x = Some m →
  ∀ values, values = None ∨ values = Some [] →
    ∃ s,
      submitted (createRelationship this
                   {| cr_a := a; cr_b := b;
                      cr_relationship :=
                        {| rel_label := L; rel_direction := d;
                           rel_values := values |};
                      cr_where := Some x |} w) = Some s
      ∧ run_parameters s = m
      ∧ run_statement s =
          createRelationship_statement a b
            (directionString {| rel_label := L; rel_direction := d;
                                rel_values := values |})
            (statement x) "".
Proof.
  intros Hl values Hvalues.
  rewrite (createRelationship_run this a b _ x w m Hl).
  destruct Hvalues as [-> | ->]; by eexists.
Qed.

(** X3. For a label without the letter W, the text [WHERE] occurs in the
    statement of bulk-edit and of bulk-delete exactly when a Where argument
    is supplied. *)
Theorem where_keyword_iff_supplied nodesLabel
    (where_ : option WhereStatementI) :
  hasChar "W" nodesLabel = false →
  (occursIn "WHERE" (editMany_statement nodesLabel where_) ↔ is_Some where_)
  ∧ (occursIn "WHERE" (deleteMany_statement nodesLabel where_)
     ↔ is_Some where_).
Proof.
  intros HW. destruct where_ as [x|]; split; split; try done.
  - intros _.
    exists (nl +:+ indent12 +:+ "MATCH (" +:+ getLabel nodesLabel +:+ ": " +:+
            getLabel nodesLabel +:+ ")" +:+ nl +:+ indent8),
           (" " +:+ statement x +:+
            nl +:+ indent12 +:+ "SET " +:+ getLabel nodesLabel +:+
            " += { options }" +:+ nl +:+ indent12 +:+ "return " +:+
            getLabel nodesLabel +:+ nl +:+ indent8).
    unfold editMany_statement. by rewrite !string_app_assoc.
  - intros _.
    exists (nl +:+ indent12 +:+ "MATCH (" +:+ getLabel nodesLabel +:+ ": " +:+
            getLabel nodesLabel +:+ ")" +:+ nl +:+ indent8),
           (" " +:+ statement x +:+
            nl +:+ indent12 +:+ "OPTIONAL MATCH (" +:+ getLabel nodesLabel +:+
            ")-[r]-()" +:+ nl +:+ indent12 +:+ "DELETE " +:+
            getLabel nodesLabel +:+ ",r" +:+ nl +:+ indent8).
    unfold deleteMany_statement. by rewrite !string_app_assoc.
  - intros Hocc. apply (occursIn_hasChar "W") in Hocc; [|done].
    unfold editMany_statement, getLabel in Hocc.
    rewrite !hasChar_app, HW in Hocc. discriminate Hocc.
  - intros Hocc. apply (occursIn_hasChar "W") in Hocc; [|done].
    unfold deleteMany_statement, getLabel in Hocc.
    rewrite !hasChar_app, HW in Hocc. discriminate Hocc.
Qed.

End claims.

(** ** Further facts about labels, names and statements *)

Section text_facts.
Implicit Types (s t u : string) (m : mapping).

Lemma to_list_app s t :
  list_ascii_of_string (s +:+ t)
  = (list_ascii_of_string s ++ list_ascii_of_string t)%list.
Proof.
  induction s as [|c s IH]; [done|].
  change (c :: list_ascii_of_string (s +:+ t)
          = c :: (list_ascii_of_string s ++ list_ascii_of_string t)%list).
  by rewrite IH.
Qed.

Lemma to_list_inj s t :
  list_ascii_of_string s = list_ascii_of_string t → s = t.
Proof.
  intros H. rewrite <- (string_of_list_ascii_of_string s),
    <- (string_of_list_ascii_of_string t). by rewrite H.
Qed.

Lemma string_app_inv_tail s t u : s +:+ u = t +:+ u → s = t.
Proof.
  intros H. apply to_list_inj. apply (f_equal list_ascii_of_string) in H.
  rewrite !to_list_app in H. by apply app_inv_tail in H.
Qed.

Lemma string_app_last s c :
  last (list_ascii_of_string (s +:+ String c "")) = Some c.
Proof. rewrite to_list_app. apply last_snoc. Qed.






End text_facts.

Section further_properties.
Implicit Types (this : QueryRunner) (w : world) (m : mapping).


(** X5. Each operation that returns has logged exactly what it submitted,
    once, when the runner has a logger, and nothing otherwise; a
    create-relationship that throws for want of a Where logs nothing. A
    runner constructed without parameters or without a logger has none. *)
Theorem operations_log_what_they_submit this w (x : WhereStatementI) m :
  heap w !! bindParam x = Some m →
  ∀ nodesLabel items options a b relationship,
    logs_its_submission this w (createMany this nodesLabel items w)
    ∧ logs_its_submission this w (editMany this nodesLabel options (Some x) w)
    ∧ logs_its_submission this w (editMany this nodesLabel options None w)
    ∧ logs_its_submission this w (deleteMany this nodesLabel (Some x) w)
    ∧ logs_its_submission this w (deleteMany this nodesLabel None w)
    ∧ logs_its_submission this w
        (createRelationship this
           {| cr_a := a; cr_b := b; cr_relationship := relationship;
              cr_where := Some x |} w)
    ∧ logs_its_submission this w
        (createRelationship this
           {| cr_a := a; cr_b := b; cr_relationship := relationship;
              cr_where := None |} w)
    ∧ logger (QueryRunner_new None) = false
    ∧ logger (QueryRunner_new (Some None)) = false
    ∧ logger (QueryRunner_new (Some (Some tt))) = true.
Proof.
  intros Hl nodesLabel items options a b relationship.
  unfold logs_its_submission. split_and!; try reflexivity.
  - unfold createMany. by rewrite andThen_log_run.
  - by rewrite (editMany_run_some this nodesLabel options x w m Hl).
  - by rewrite editMany_run_none.
  - by rewrite deleteMany_run.
  - by rewrite deleteMany_run.
  - rewrite (createRelationship_run this a b relationship x w m Hl).
    by destruct (hasOwn _ _).
Qed.

(** X6. One Where clause can be reused across consecutive calls: after a
    bulk-edit or a create-relationship that was given it, a bulk-edit, a
    bulk-delete or a create-relationship given the same Where has the same
    outcome as if it had run first. *)
Theorem where_reusable_across_calls this w (x : WhereStatementI) m :
  heap w !! bindParam x = Some m →
  ∀ label1 options1 a1 b1 relationship1 label2 options2 a2 b2 relationship2
    (w' : world),
    w' = (editMany this label1 options1 (Some x) w).2
    ∨ w' = (createRelationship this
              {| cr_a := a1; cr_b := b1; cr_relationship := relationship1;
                 cr_where := Some x |} w).2 →
    (editMany this label2 options2 (Some x) w').1
      = (editMany this label2 options2 (Some x) w).1
    ∧ (deleteMany this label2 (Some x) w').1
      = (deleteMany this label2 (Some x) w).1
    ∧ (createRelationship this
         {| cr_a := a2; cr_b := b2; cr_relationship := relationship2;
            cr_where := Some x |} w').1
      = (createRelationship this
           {| cr_a := a2; cr_b := b2; cr_relationship := relationship2;
              cr_where := Some x |} w).1.
Proof.
  intros Hl label1 options1 a1 b1 relationship1 label2 options2 a2 b2
    relationship2 w' Hw'.
  assert (Hl' : heap w' !! bindParam x = Some m).
  { destruct Hw' as [-> | ->].
    - rewrite (editMany_run_some this label1 options1 x w m Hl).
      by apply lookup_app_l_Some.
    - rewrite (createRelationship_run this a1 b1 relationship1 x w m Hl).
      destruct (hasOwn _ _); by apply lookup_app_l_Some. }
  rewrite (editMany_run_some this label2 options2 x w' m Hl').
  rewrite (editMany_run_some this label2 options2 x w m Hl).
  rewrite !deleteMany_run.
  rewrite (createRelationship_run this a2 b2 relationship2 x w' m Hl').
  rewrite (createRelationship_run this a2 b2 relationship2 x w m Hl).
  rewrite (contents_valid _ _ _ Hl), (contents_valid _ _ _ Hl').
  by destruct (hasOwn _ _).
Qed.

(** X7. The message of a [NeogmaNotFoundError] is never the empty string,
    whatever message is passed and whatever the parent constructor does. *)
Theorem NeogmaNotFoundError_message_nonempty
    (super : option string → option value → NeogmaError)
    (msg : option string) (dat : option value) :
  message (NeogmaNotFoundError super msg dat) ≠ "".
Proof. by destruct msg as [[|c rest]|]. Qed.

(** X8. Two labels with the same escaped text are the same label, also when
    the labels themselves contain backticks. *)
Theorem getLabel_inj (label1 label2 : string) :
  getLabel label1 = getLabel label2 → label1 = label2.
Proof.
  unfold getLabel. intros H%(inj (String.append "`")).
  by apply string_app_inv_tail in H.
Qed.

(** X9. The relationship segment determines the relationship's label and
    direction: two relationships that render the same segment have the same
    label and the same direction, whatever characters the labels contain. *)
Theorem directionString_inj (r1 r2 : RelationshipI) :
  directionString r1 = directionString r2 →
  rel_label r1 = rel_label r2 ∧ rel_direction r1 = rel_direction r2.
Proof.
  destruct r1 as [L1 d1 vs1], r2 as [L2 d2 vs2].
  unfold directionString, getLabel. cbn [rel_label rel_direction].
  rewrite !string_app_assoc.
  assert (Hlast : ∀ L u c, last (list_ascii_of_string
                    (L +:+ u +:+ String c "")) = Some c).
  { intros L u c. rewrite <- string_app_assoc. apply string_app_last. }
  destruct d1, d2; intros H; try discriminate H.
  - injection H as H.
    apply (string_app_inv_tail _ _ "`]->") in H as ->. done.
  - apply (f_equal (λ s, last (list_ascii_of_string s))) in H.
    change (last (list_ascii_of_string
              ("-[r:`" +:+ L1 +:+ "`]-" +:+ String ">" ""))
            = last (list_ascii_of_string
                ("-[r:`" +:+ L2 +:+ "`]" +:+ String "-" ""))) in H.
    rewrite <- !(string_app_assoc _ L1), <- !(string_app_assoc _ L2) in H.
    rewrite !Hlast in H. discriminate H.
  - injection H as H.
    apply (string_app_inv_tail _ _ "`]-") in H as ->. done.
  - apply (f_equal (λ s, last (list_ascii_of_string s))) in H.
    change (last (list_ascii_of_string
              ("-[r:`" +:+ L1 +:+ "`]" +:+ String "-" ""))
            = last (list_ascii_of_string
                ("-[r:`" +:+ L2 +:+ "`]-" +:+ String ">" ""))) in H.
    rewrite <- !(string_app_assoc _ L1), <- !(string_app_assoc _ L2) in H.
    rewrite !Hlast in H. discriminate H.
  - injection H as H.
    apply (string_app_inv_tail _ _ "`]-") in H as ->. done.
Qed.


(** X11. create-relationship, given an attribute object that has an own
    property named [hasOwnProperty], throws a TypeError in the first round
    of its loop: nothing is logged, nothing is handed to [run], and the
    registry of the caller's Where is as it was. *)
Theorem createRelationship_shadowed_hasOwnProperty this a b L d
    (values : obj) (x : WhereStatementI) w m :
  heap w !! bindParam x = Some m →
  hasOwn values "hasOwnProperty" = true →
  let r := createRelationship this
             {| cr_a := a; cr_b := b;
                cr_relationship :=
                  {| rel_label := L; rel_direction := d;
                     rel_values := Some values |};
                cr_where := Some x |} w in
  (∃ msg, r.1 = Throws (TypeError msg))
  ∧ submitted r = None
  ∧ logged r.2 = logged w
  ∧ contents r.2 (bindParam x) = m.
Proof.
  intros Hl Hshadow r. subst r.
  rewrite (createRelationship_run this a b _ x w m Hl).
  unfold attributeValues. cbn [rel_values]. rewrite Hshadow.
  split_and!; [by eexists|done|done|].
  apply contents_valid. cbn [snd heap]. by apply lookup_app_l_Some.
Qed.

End further_properties.

(** ** The theorems at concrete inputs *)

Section witnesses.

Lemma caller_bindParam_unchanged_witness :
  heap example_world !! bindParam example_where = Some {[ "id" := VNum 1 ]}
  ∧ contents
      (editMany {| logger := true |} "Person" [("id", VNum 2)]
         (Some example_where) example_world).2 0
    = {[ "id" := VNum 1 ]}
  ∧ contents
      (createRelationship {| logger := true |}
         {| cr_a := {| label := "Person" |}; cr_b := {| label := "Person" |};
            cr_relationship := example_relationship;
            cr_where := Some example_where |} example_world).2 0
    = {[ "id" := VNum 1 ]}.
Proof.
  pose proof (caller_bindParam_unchanged {| logger := true |} example_where
                example_world {[ "id" := VNum 1 ]} eq_refl
                "Person" [("id", VNum 2)]
                {| label := "Person" |} {| label := "Person" |}
                example_relationship) as (Hedit & Hcreate & _).
  exact (conj eq_refl (conj Hedit Hcreate)).
Defined.

Lemma same_preferred_name_twice_witness :
  heap example_world !! 0 = Some {[ "id" := VNum 1 ]}
  ∧ ∃ n1 n2,
      n1 ≠ n2
      ∧ contents
          (BindParam.getUniqueNameAndAdd 0 "id" (VNum 3)
             (BindParam.getUniqueNameAndAdd 0 "id" (VNum 2) example_world).2).2
          0 !! n1 = Some (VNum 2)
      ∧ contents
          (BindParam.getUniqueNameAndAdd 0 "id" (VNum 3)
             (BindParam.getUniqueNameAndAdd 0 "id" (VNum 2) example_world).2).2
          0 !! n2 = Some (VNum 3).
Proof.
  split; [reflexivity|].
  destruct (same_preferred_name_twice 0 example_world {[ "id" := VNum 1 ]}
              "id" (VNum 2) (VNum 3) eq_refl)
    as (n1 & n2 & _ & _ & Hne & _ & _ & H1 & H2 & _).
  exact (ex_intro _ n1 (ex_intro _ n2 (conj Hne (conj H1 H2)))).
Defined.

(** The same Where, once at location 0 of one heap and once at location 1
    of another. *)
Lemma two_run_determinism_witness :
  let w2 := {| heap := [∅; {[ "id" := VNum 1 ]}]; logged := [] |} in
  let where2 := {| statement := "a.id = {id}"; bindParam := 1 |} in
  same_where example_world (Some example_where) w2 (Some where2)
  ∧ (editMany {| logger := false |} "Person" [("age", VNum 30)]
       (Some example_where) example_world).1
    = (editMany {| logger := false |} "Person" [("age", VNum 30)]
         (Some where2) w2).1.
Proof.
  intros w2 where2.
  assert (Hsame : same_where example_world (Some example_where)
                    w2 (Some where2)).
  { split; [reflexivity|]. exists {[ "id" := VNum 1 ]}. split; reflexivity. }
  split; [exact Hsame|].
  destruct (two_run_determinism {| logger := false |} example_world w2
              (Some example_where) (Some where2) Hsame
              "Person" [] [("age", VNum 30)]
              {| label := "Person" |} {| label := "Person" |}
              example_relationship) as (_ & Hedit & _).
  exact Hedit.
Defined.


Lemma createRelationship_without_values_witness :
  heap example_world !! bindParam example_where = Some {[ "id" := VNum 1 ]}
  ∧ ∃ s,
      submitted (createRelationship {| logger := false |}
                   {| cr_a := {| label := "Person" |};
                      cr_b := {| label := "City" |};
                      cr_relationship :=
                        {| rel_label := "LIVES_IN"; rel_direction := none;
                           rel_values := None |};
                      cr_where := Some example_where |} example_world) = Some s
      ∧ run_parameters s = {[ "id" := VNum 1 ]}.
Proof.
  split; [reflexivity|].
  destruct (createRelationship_without_values {| logger := false |}
              {| label := "Person" |} {| label := "City" |} "LIVES_IN" none
              example_where example_world {[ "id" := VNum 1 ]} eq_refl
              None (or_introl eq_refl))
    as (s & Hs & Hparams & _).
  exact (ex_intro _ s (conj Hs Hparams)).
Defined.

Lemma where_keyword_iff_supplied_witness :
  hasChar "W" "Person" = false
  ∧ (occursIn "WHERE" (editMany_statement "Person" (Some example_where))
     ↔ is_Some (Some example_where)).
Proof.
  split; [reflexivity|].
  exact (proj1 (where_keyword_iff_supplied "Person" (Some example_where)
                  eq_refl)).
Defined.


Lemma operations_log_what_they_submit_witness :
  heap example_world !! bindParam example_where = Some {[ "id" := VNum 1 ]}
  ∧ logs_its_submission {| logger := true |} example_world
      (editMany {| logger := true |} "Person" [("age", VNum 30)]
         (Some example_where) example_world).
Proof.
  split; [reflexivity|].
  exact (proj1 (proj2
    (operations_log_what_they_submit {| logger := true |} example_world
       example_where {[ "id" := VNum 1 ]} eq_refl
       "Person" [] [("age", VNum 30)]
       {| label := "Person" |} {| label := "Person" |}
       example_relationship))).
Defined.

Lemma where_reusable_across_calls_witness :
  heap example_world !! bindParam example_where = Some {[ "id" := VNum 1 ]}
  ∧ (deleteMany {| logger := false |} "Person" (Some example_where)
       (editMany {| logger := false |} "Person" [("id", VNum 2)]
          (Some example_where) example_world).2).1
    = (deleteMany {| logger := false |} "Person" (Some example_where)
         example_world).1.
Proof.
  split; [reflexivity|].
  exact (proj1 (proj2
    (where_reusable_across_calls {| logger := false |} example_world
       example_where {[ "id" := VNum 1 ]} eq_refl
       "Person" [("id", VNum 2)] {| label := "Person" |} {| label := "Person" |}
       example_relationship
       "Person" [] {| label := "Person" |} {| label := "Person" |}
       example_relationship _ (or_introl eq_refl)))).
Defined.

Lemma getLabel_inj_witness :
  getLabel "My Label" = getLabel "My Label" ∧ "My Label" = "My Label".
Proof.
  exact (conj eq_refl (getLabel_inj "My Label" "My Label" eq_refl)).
Defined.

Lemma directionString_inj_witness :
  directionString example_relationship
  = directionString {| rel_label := "KNOWS"; rel_direction := out;
                       rel_values := None |}
  ∧ rel_direction example_relationship = out.
Proof.
  split; [reflexivity|].
  exact (proj2 (directionString_inj example_relationship
                  {| rel_label := "KNOWS"; rel_direction := out;
                     rel_values := None |} eq_refl)).
Defined.


Lemma createRelationship_shadowed_hasOwnProperty_witness :
  heap example_world !! bindParam example_where = Some {[ "id" := VNum 1 ]}
  ∧ hasOwn [("hasOwnProperty", VNum 1)] "hasOwnProperty" = true
  ∧ submitted
      (createRelationship {| logger := true |}
         {| cr_a := {| label := "Person" |}; cr_b := {| label := "Person" |};
            cr_relationship :=
              {| rel_label := "KNOWS"; rel_direction := out;
                 rel_values := Some [("hasOwnProperty", VNum 1)] |};
            cr_where := Some example_where |} example_world) = None.
Proof.
  split; [reflexivity|]. split; [reflexivity|].
  exact (proj1 (proj2
    (createRelationship_shadowed_hasOwnProperty {| logger := true |}
       {| label := "Person" |} {| label := "Person" |} "KNOWS" out
       [("hasOwnProperty", VNum 1)] example_where example_world
       {[ "id" := VNum 1 ]} eq_refl eq_refl))).
Defined.


End witnesses.
